(** * Procedural geometry engine of generative_cover: noise, fBm, flow
    tracing and Catmull-Rom blobs.

    Shallow embedding of [pic_scripts/organic_flowfield.py] and
    [pic_scripts/organic_with_blobs.py].  Python [int]s are [Z] (unbounded,
    two's-complement bit operations, floor shifts).  Python [float]s are
    modelled by exact rationals [Q]: every finite double is a rational, and
    the model leaves out rounding.  [math.cos], [math.sin] and [math.pi] are
    section variables of the tracer and blob code, which never inspects them. *)

From Stdlib Require Import String.
From Stdlib Require Import ZArith QArith Qround Qminmax List Lia Lqa Psatz.
Import ListNotations.

Open Scope Z_scope.

(** ** HashMixer: [_hash_int] and [_rand2] *)

Definition mask32 : Z := 4294967295.  (* 0xFFFFFFFF *)

(** [_hash_int]: the avalanche on the unbounded integer, masked once at the end. *)
Definition _hash_int (n : Z) : Z :=
  let n := Z.lxor (Z.lxor n 61) (Z.shiftr n 16) in
  let n := n + Z.shiftl n 3 in
  let n := Z.lxor n (Z.shiftr n 4) in
  let n := n * 668265261 in   (* 0x27D4EB2D *)
  let n := Z.lxor n (Z.shiftr n 15) in
  Z.land n mask32.

Definition hash_input (ix iy seed : Z) : Z :=
  ix * 374761393 + iy * 668265263 + seed * 362437.

Definition _rand2 (ix iy seed : Z) : Q :=
  inject_Z (_hash_int (hash_input ix iy seed)) / inject_Z (2 ^ 32).

(** The reading of the spec: the same avalanche with the value masked to
    32 bits after every step. *)
Definition hash_masked_each_step (n : Z) : Z :=
  let n := Z.land n mask32 in
  let n := Z.land (Z.lxor (Z.lxor n 61) (Z.shiftr n 16)) mask32 in
  let n := Z.land (n + Z.shiftl n 3) mask32 in
  let n := Z.land (Z.lxor n (Z.shiftr n 4)) mask32 in
  let n := Z.land (n * 668265261) mask32 in
  Z.land (Z.lxor n (Z.shiftr n 15)) mask32.

Open Scope Q_scope.

(** ** ValueNoiseField *)

Definition _fade (t : Q) : Q := t * t * t * (t * (t * 6 - 15) + 10).

Definition _lerp (a b t : Q) : Q := a + (b - a) * t.

Definition value_noise_2d (x y : Q) (seed : Z) : Q :=
  let x0 := Qfloor x in
  let y0 := Qfloor y in
  let x1 := (x0 + 1)%Z in
  let y1 := (y0 + 1)%Z in
  let sx := _fade (x - inject_Z x0) in
  let sy := _fade (y - inject_Z y0) in
  let n00 := _rand2 x0 y0 seed in
  let n10 := _rand2 x1 y0 seed in
  let n01 := _rand2 x0 y1 seed in
  let n11 := _rand2 x1 y1 seed in
  let ix0 := _lerp n00 n10 sx in
  let ix1 := _lerp n01 n11 sx in
  _lerp ix0 ix1 sy.

(** ** FractalField: [fbm_2d] *)

(** The loop state [(amp, freq, total, norm)] of [fbm_2d]. *)
Record fbm_state := FbmState { amp : Q; freq : Q; total : Q; norm : Q }.

(** One iteration of [for o in range(octaves)], octave index [o]. *)
Definition fbm_step (x y : Q) (seed : Z) (lacunarity gain : Q) (o : Z)
    (s : fbm_state) : fbm_state :=
  let total := total s + amp s * value_noise_2d (x * freq s) (y * freq s)
                                   (seed + 1013 * o) in
  let norm := norm s + amp s in
  FbmState (amp s * gain) (freq s * lacunarity) total norm.

(** The octaves [o, o+1, ..., o+k-1]. *)
Fixpoint fbm_loop (x y : Q) (seed : Z) (lacunarity gain : Q) (o : Z) (k : nat)
    (s : fbm_state) : fbm_state :=
  match k with
  | O => s
  | S k' => fbm_loop x y seed lacunarity gain (o + 1)%Z k'
              (fbm_step x y seed lacunarity gain o s)
  end.

Definition fbm_eps : Q := 1 # 1000000000.   (* 1e-9 *)

Definition fbm_2d (x y : Q) (seed : Z) (octaves : Z) (lacunarity gain : Q) : Q :=
  let s := fbm_loop x y seed lacunarity gain 0 (Z.to_nat octaves)
             (FbmState 1 1 0 0) in
  total s / Qmax (norm s) fbm_eps.

(** ** Flow tracer and blob geometry *)

Definition point := (Q * Q)%type.

(** The tuple [(p1, c1, c2, p2)] of [catmull_rom_to_beziers]. *)
Definition bezier := (point * point * point * point)%type.

Definition seg_start (s : bezier) : point := fst (fst (fst s)).
Definition seg_end (s : bezier) : point := snd s.

(** A call either returns or raises [ValueError(msg)]. *)
Inductive result (A : Type) :=
| Ok : A -> result A
| ValueError : string -> result A.
Arguments Ok {A} _.
Arguments ValueError {A} _.

(** The fields of [Config] the tracer reads (styling left out). *)
Record Config := MkConfig {
  width : Q; height : Q; margin : Q;
  cfg_seed : Z;
  steps_per_line : Z;
  step_len : Q;
  field_scale : Q;
  octaves : Z;
  angle_turns : Q }.

(** The closure [inside] of [generate_flowfield_svg]. *)
Definition inside (cfg : Config) (px py : Q) : bool :=
  (Qle_bool (margin cfg) px && Qle_bool px (width cfg - margin cfg)) &&
  (Qle_bool (margin cfg) py && Qle_bool py (height cfg - margin cfg)).

(** A Python index [points[k]] with [0 <= k < len(points)]. *)
Definition py_index (pts : list point) (k : Z) : point := nth (Z.to_nat k) pts (0, 0).

(** One Bezier segment of [catmull_rom_to_beziers] at index [i]. *)
Definition cr_segment (pts : list point) (closed : bool) (tension : Q) (i : Z) : bezier :=
  let n := Z.of_nat (length pts) in
  let p0 := if closed then py_index pts ((i - 1) mod n) else py_index pts (Z.max (i - 1) 0) in
  let p1 := py_index pts (i mod n) in
  let p2 := if closed then py_index pts ((i + 1) mod n) else py_index pts (Z.min (i + 1) (n - 1)) in
  let p3 := if closed then py_index pts ((i + 2) mod n) else py_index pts (Z.min (i + 2) (n - 1)) in
  let t := tension in
  let c1 := (fst p1 + (fst p2 - fst p0) / 6 * t, snd p1 + (snd p2 - snd p0) / 6 * t) in
  let c2 := (fst p2 - (fst p3 - fst p1) / 6 * t, snd p2 - (snd p3 - snd p1) / 6 * t) in
  (p1, c1, c2, p2).

(** The [for i in range(...)] loop, with its [break] for open curves. *)
Fixpoint cr_loop (pts : list point) (closed : bool) (tension : Q) (idx : list nat)
    : list bezier :=
  match idx with
  | [] => []
  | i :: rest =>
      cr_segment pts closed tension (Z.of_nat i) ::
      (if negb closed && (Z.of_nat i =? Z.of_nat (length pts) - 2)%Z then []
       else cr_loop pts closed tension rest)
  end.

Definition catmull_rom_to_beziers (pts : list point) (closed : bool) (tension : Q)
    : result (list bezier) :=
  let n := length pts in
  if (n <? 4)%nat then ValueError "Need at least 4 points for Catmull-Rom."
  else Ok (cr_loop pts closed tension (seq 0 (if closed then n else n - 1))).

Section Trig.
(** [math.cos], [math.sin] and [math.pi]. *)
Variables (cos sin : Q -> Q) (pi : Q).

(** One step of the particle, lines 152-159 of [organic_flowfield.py]. *)
Definition flow_step (cfg : Config) (x y : Q) : point :=
  let nx := x * field_scale cfg in
  let ny := y * field_scale cfg in
  let n := fbm_2d nx ny (cfg_seed cfg) (octaves cfg) 2 (1 # 2) in
  let angle := (2 * pi * angle_turns cfg) * n in
  (x + cos angle * step_len cfg, y + sin angle * step_len cfg).

(** The inner [for _s in range(k)] loop: the points appended to [pts],
    for a bounds predicate [inb]. *)
Fixpoint trace_steps (inb : Q -> Q -> bool) (cfg : Config) (k : nat) (x y : Q)
    : list point :=
  match k with
  | O => []
  | S k' =>
      let '(x', y') := flow_step cfg x y in
      if negb (inb x' y') then []
      else (x', y') :: trace_steps inb cfg k' x' y'
  end.

(** [pts] of one flow line started at [(x, y)]. *)
Definition trace (inb : Q -> Q -> bool) (cfg : Config) (x y : Q) : list point :=
  (x, y) :: trace_steps inb cfg (Z.to_nat (steps_per_line cfg)) x y.

(** The trace of [generate_flowfield_svg], bounded by its [inside]. *)
Definition trace_flowfield (cfg : Config) (x y : Q) : list point :=
  trace (inside cfg) cfg x y.

(** The filter [if len(pts) >= 8] before a polyline is drawn. *)
Definition emitted_polyline (pts : list point) : option (list point) :=
  if (8 <=? length pts)%nat then Some pts else None.

(** The positions the particle visits when nothing stops it. *)
Fixpoint free_path (cfg : Config) (k : nat) (x y : Q) : list point :=
  match k with
  | O => []
  | S k' => let '(x', y') := flow_step cfg x y in (x', y') :: free_path cfg k' x' y'
  end.

(** The ring of [blob_path_d]; [ang0] is the draw [rng.uniform(0, 2*pi)]. *)
Definition blob_ring (center : point) (base_r ang0 : Q) (seed : Z) (scale : Q)
    (octaves : Z) (n_points : Z) (roughness : Q) : list point :=
  let '(cx, cy) := center in
  map (fun i : nat =>
         let a := ang0 + (2 * pi) * (inject_Z (Z.of_nat i) / inject_Z n_points) in
         let nx := (cx + cos a * base_r) * scale in
         let ny := (cy + sin a * base_r) * scale in
         let n := fbm_2d nx ny seed octaves 2 (1 # 2) in
         let dv := (n - (1 # 2)) * 2 in
         let r := base_r * (1 + dv * roughness) in
         (cx + cos a * r, cy + sin a * r))
      (seq 0 (Z.to_nat n_points)).

(** The segments [blob_path_d] builds its path string from, in order. *)
Definition blob_segments (center : point) (base_r ang0 : Q) (seed : Z) (scale : Q)
    (octaves : Z) (n_points : Z) (roughness tension : Q) : result (list bezier) :=
  catmull_rom_to_beziers
    (blob_ring center base_r ang0 seed scale octaves n_points roughness) true tension.

End Trig.


(** ** Range lemmas of the noise field *)

Lemma hash_int_range (n : Z) : (0 <= _hash_int n < 2 ^ 32)%Z.
Proof.
  unfold _hash_int.
  change mask32 with (Z.ones 32).
  rewrite Z.land_ones by lia.
  apply Z.mod_pos_bound; lia.
Qed.

Lemma rand2_range (ix iy seed : Z) : 0 <= _rand2 ix iy seed /\ _rand2 ix iy seed < 1.
Proof.
  unfold _rand2.
  destruct (hash_int_range (hash_input ix iy seed)) as [H0 H1].
  set (h := _hash_int (hash_input ix iy seed)) in *.
  assert (Hp : 0 < inject_Z (2 ^ 32)) by (unfold Qlt; simpl; lia).
  split.
  - apply Qle_shift_div_l; [exact Hp|].
    rewrite Qmult_0_l. unfold Qle; simpl; lia.
  - apply Qlt_shift_div_r; [exact Hp|].
    rewrite Qmult_1_l. rewrite <- Zlt_Qlt. exact H1.
Qed.

Lemma fade_range (t : Q) : 0 <= t -> t <= 1 -> 0 <= _fade t /\ _fade t <= 1.
Proof.
  intros H0 H1. unfold _fade.
  assert (Ha : 0 <= t * t * t) by (apply Qmult_le_0_compat; [apply Qmult_le_0_compat|]; lra).
  assert (Hb : 0 <= (1 - t) * (1 - t) * (1 - t))
    by (apply Qmult_le_0_compat; [apply Qmult_le_0_compat|]; lra).
  assert (Hc : 0 <= t * t) by (apply Qmult_le_0_compat; lra).
  split.
  - assert (E : t * t * t * (t * (t * 6 - 15) + 10)
                == t * t * t * (6 * ((t - (5 # 4)) * (t - (5 # 4))) + (5 # 8))) by ring.
    rewrite E. apply Qmult_le_0_compat; [exact Ha|].
    assert (0 <= (t - (5 # 4)) * (t - (5 # 4))) by nra. lra.
  - assert (E : 1 - t * t * t * (t * (t * 6 - 15) + 10)
                == (1 - t) * (1 - t) * (1 - t) * (6 * (t * t) + 3 * t + 1)) by ring.
    assert (0 <= (1 - t) * (1 - t) * (1 - t) * (6 * (t * t) + 3 * t + 1))
      by (apply Qmult_le_0_compat; lra).
    lra.
Qed.

Lemma lerp_range (a b t : Q) :
  0 <= a <= 1 -> 0 <= b <= 1 -> 0 <= t <= 1 -> 0 <= _lerp a b t <= 1.
Proof.
  intros Ha Hb Ht. unfold _lerp.
  assert (E : a + (b - a) * t == a * (1 - t) + b * t) by ring.
  rewrite E.
  assert (0 <= a * (1 - t)) by (apply Qmult_le_0_compat; lra).
  assert (0 <= b * t) by (apply Qmult_le_0_compat; lra).
  assert (a * (1 - t) <= 1 - t) by nra.
  assert (b * t <= t) by nra.
  lra.
Qed.

Lemma floor_frac_range (x : Q) : 0 <= x - inject_Z (Qfloor x) <= 1.
Proof.
  pose proof (Qfloor_le x). pose proof (Qlt_floor x).
  rewrite inject_Z_plus in H0. unfold inject_Z at 2 in H0. lra.
Qed.

Lemma value_noise_range (x y : Q) (seed : Z) :
  0 <= value_noise_2d x y seed <= 1.
Proof.
  unfold value_noise_2d.
  pose proof (floor_frac_range x) as Hx. pose proof (floor_frac_range y) as Hy.
  pose proof (fade_range _ (proj1 Hx) (proj2 Hx)) as Fx.
  pose proof (fade_range _ (proj1 Hy) (proj2 Hy)) as Fy.
  repeat match goal with
  | |- context [_rand2 ?a ?b ?c] =>
      let H := fresh "R" in
      destruct (rand2_range a b c) as [? ?];
      generalize dependent (_rand2 a b c); intros
  end.
  apply lerp_range; [apply lerp_range; lra .. | lra].
Qed.

(** The loop invariant of [fbm_2d]: the amplitude stays positive and the
    running total stays between 0 and the running normalisation sum. *)
Definition fbm_inv (s : fbm_state) : Prop :=
  0 < amp s /\ 0 <= total s /\ total s <= norm s /\ 1 <= norm s.

Lemma fbm_step_inv x y seed lac gain o s :
  0 < gain -> fbm_inv s -> fbm_inv (fbm_step x y seed lac gain o s).
Proof.
  intros Hg (Ha & Ht0 & Ht1 & Hn). unfold fbm_inv, fbm_step; simpl.
  pose proof (value_noise_range (x * freq s) (y * freq s) (seed + 1013 * o)) as [V0 V1].
  set (v := value_noise_2d _ _ _) in *.
  assert (0 <= amp s * v) by (apply Qmult_le_0_compat; lra).
  assert (amp s * v <= amp s) by nra.
  assert (0 < amp s * gain) by (apply Qmult_lt_0_compat; lra).
  lra.
Qed.

Lemma fbm_loop_inv x y seed lac gain o k s :
  0 < gain -> fbm_inv s -> fbm_inv (fbm_loop x y seed lac gain o k s).
Proof.
  intros Hg. revert o s.
  induction k as [|k IH]; intros o s Hs; simpl; [exact Hs|].
  apply IH, fbm_step_inv; assumption.
Qed.

Lemma Qmult_1_r_eq (q : Q) : q * 1 = q.
Proof.
  destruct q as [n d]. unfold Qmult; simpl. rewrite Z.mul_1_r, Pos.mul_1_r. reflexivity.
Qed.

(** ** Claims about the noise field *)

(** C1: for octaves >= 1, lacunarity > 0 and gain in (0,1), the fBm sample
    lies in [0,1] (exactly, in the rational model). *)
Theorem fbm_2d_range (x y : Q) (seed octaves : Z) (lacunarity gain : Q) :
  (1 <= octaves)%Z -> 0 < lacunarity -> 0 < gain < 1 ->
  0 <= fbm_2d x y seed octaves lacunarity gain <= 1.
Proof.
  intros Ho Hl [Hg0 Hg1]. unfold fbm_2d.
  destruct (Z.to_nat octaves) as [|k] eqn:Ek; [lia|].
  cbn [fbm_loop].
  set (s := fbm_loop _ _ _ _ _ _ _ _).
  assert (Hs : fbm_inv s).
  { apply fbm_loop_inv; [exact Hg0|].
    unfold fbm_inv, fbm_step; simpl.
    pose proof (value_noise_range (x * 1) (y * 1) (seed + 1013 * 0)) as [V0 V1].
    set (v := value_noise_2d _ _ _) in *. lra. }
  destruct Hs as (Ha & Ht0 & Ht1 & Hn).
  assert (E : Qmax (norm s) fbm_eps == norm s)
    by (apply Q.max_l; unfold fbm_eps in *; lra).
  rewrite E. split.
  - apply Qle_shift_div_l; [lra|]. rewrite Qmult_0_l. exact Ht0.
  - apply Qle_shift_div_r; [lra|]. rewrite Qmult_1_l. exact Ht1.
Qed.

Lemma fbm_2d_range_witness :
  ((1 <= 4)%Z /\ 0 < 2 /\ 0 < 1 # 2 < 1) /\
  0 <= fbm_2d (3 # 2) (7 # 3) 42 4 2 (1 # 2) <= 1.
Proof.
  split; [split; [lia | lra]|].
  apply fbm_2d_range; [lia | lra | lra].
Defined.

(** C4 (as amended): with [octaves <= 0] the loop [range(octaves)] is empty,
    no error is raised, and the epsilon guard returns [0 / 1e-9 = 0]. *)
Theorem fbm_2d_no_octaves (x y : Q) (seed octaves : Z) (lacunarity gain : Q) :
  (octaves <= 0)%Z -> fbm_2d x y seed octaves lacunarity gain == 0.
Proof.
  intros Ho. unfold fbm_2d.
  replace (Z.to_nat octaves) with O by lia.
  reflexivity.
Qed.

Lemma fbm_2d_no_octaves_witness :
  (0 <= 0)%Z /\ fbm_2d 5 5 0 0 2 (1 # 2) == 0.
Proof.
  split; [lia|]. apply fbm_2d_no_octaves. lia.
Defined.

(** C4 counterexample: at [octaves = 0] the call returns the value 0
    instead of failing. *)
Lemma fbm_2d_octaves_zero_returns_value :
  fbm_2d 0 0 0 0 2 (1 # 2) = 0.
Proof. vm_compute. reflexivity. Qed.

(** C7: one octave with lacunarity 2 and gain 1/2 is the value noise itself. *)
Theorem fbm_2d_single_octave (x y : Q) (seed : Z) :
  fbm_2d x y seed 1 2 (1 # 2) == value_noise_2d x y seed.
Proof.
  unfold fbm_2d; simpl.
  rewrite !Qmult_1_r_eq, Z.add_0_r.
  assert (E : Qmax (0 + 1) fbm_eps == 1) by reflexivity.
  rewrite E. field.
Qed.

(** C10: on the integer lattice the value noise returns the corner hash. *)
Theorem value_noise_on_lattice (i j seed : Z) :
  value_noise_2d (inject_Z i) (inject_Z j) seed == _rand2 i j seed.
Proof.
  unfold value_noise_2d. rewrite !Qfloor_Z.
  unfold _lerp, _fade. ring.
Qed.

(** ** Claim about the hash *)

(** C5 counterexample: the source masks only once at the end, and the
    avalanche of [mix(0,0,0)] differs from the per-step masked one. *)
Lemma hash_int_not_masked_each_step :
  _hash_int (hash_input 0 0 0) = 3221834090%Z /\
  hash_masked_each_step (hash_input 0 0 0) = 3232319850%Z.
Proof. split; vm_compute; reflexivity. Qed.

(** C5 (as amended): whatever the (possibly negative or wide) integer input,
    [_hash_int] yields an unsigned 32-bit value and [_rand2] lies in [0,1). *)
Theorem hash_mix_range (ix iy seed : Z) :
  (0 <= _hash_int (hash_input ix iy seed) < 2 ^ 32)%Z /\
  0 <= _rand2 ix iy seed < 1.
Proof.
  split; [apply hash_int_range | apply rand2_range].
Qed.

(** ** Flow tracer *)

Lemma last_default {A} (a : A) (l : list A) (d d' : A) :
  last (a :: l) d = last (a :: l) d'.
Proof.
  revert a. induction l as [|b l IH]; intros a; [reflexivity|].
  change (last (b :: l) d = last (b :: l) d'). apply IH.
Qed.

Lemma last_cons2 {A} (a b : A) (l : list A) (d d' : A) :
  last (a :: b :: l) d = last (b :: l) d'.
Proof. change (last (b :: l) d = last (b :: l) d'). apply last_default. Qed.

Section TraceProofs.
Variables (cos sin : Q -> Q) (pi : Q).
Variable inb : Q -> Q -> bool.
Variable cfg : Config.

Lemma trace_steps_length k x y : (length (trace_steps cos sin pi inb cfg k x y) <= k)%nat.
Proof.
  revert x y. induction k as [|k IH]; intros x y; cbn [trace_steps free_path length]; [lia|].
  destruct (flow_step cos sin pi cfg x y) as [x' y'].
  destruct (inb x' y'); simpl; [specialize (IH x' y'); lia | lia].
Qed.

Lemma trace_steps_inside k x y :
  Forall (fun p => inb (fst p) (snd p) = true) (trace_steps cos sin pi inb cfg k x y).
Proof.
  revert x y. induction k as [|k IH]; intros x y; cbn [trace_steps free_path length]; [constructor|].
  destruct (flow_step cos sin pi cfg x y) as [x' y'] eqn:E.
  destruct (inb x' y') eqn:Hb; simpl; [|constructor].
  constructor; [exact Hb | apply IH].
Qed.

Lemma trace_steps_early_stop k x y :
  (length (trace_steps cos sin pi inb cfg k x y) < k)%nat ->
  inb (fst (flow_step cos sin pi cfg (fst (last ((x, y) :: trace_steps cos sin pi inb cfg k x y) (x, y)))
                 (snd (last ((x, y) :: trace_steps cos sin pi inb cfg k x y) (x, y)))))
      (snd (flow_step cos sin pi cfg (fst (last ((x, y) :: trace_steps cos sin pi inb cfg k x y) (x, y)))
                 (snd (last ((x, y) :: trace_steps cos sin pi inb cfg k x y) (x, y))))) = false.
Proof.
  revert x y. induction k as [|k IH]; intros x y Hl; [simpl in Hl; lia|].
  cbn [trace_steps] in Hl |- *.
  destruct (flow_step cos sin pi cfg x y) as [x' y'] eqn:E.
  destruct (inb x' y') eqn:Hb; cbn [negb length] in Hl |- *.
  - specialize (IH x' y' ltac:(lia)).
    destruct (trace_steps cos sin pi inb cfg k x' y') as [|p l]; [exact IH|].
    rewrite (last_cons2 (x, y) (x', y') (p :: l) (x, y) (x', y')). exact IH.
  - cbn [last fst snd]. rewrite E. exact Hb.
Qed.

Lemma trace_steps_free k x y :
  Forall (fun p => inb (fst p) (snd p) = true) (free_path cos sin pi cfg k x y) ->
  trace_steps cos sin pi inb cfg k x y = free_path cos sin pi cfg k x y.
Proof.
  revert x y. induction k as [|k IH]; intros x y H; cbn [trace_steps free_path] in *; [reflexivity|].
  destruct (flow_step cos sin pi cfg x y) as [x' y'].
  inversion H as [|p l Hp Hrest]; subst. simpl in Hp. rewrite Hp. simpl.
  f_equal. apply IH. exact Hrest.
Qed.

Lemma free_path_length k x y : length (free_path cos sin pi cfg k x y) = k.
Proof.
  revert x y. induction k as [|k IH]; intros x y; cbn [trace_steps free_path length]; [reflexivity|].
  destruct (flow_step cos sin pi cfg x y) as [x' y']. simpl. f_equal. apply IH.
Qed.

End TraceProofs.

(** C3 (as amended): the trace has at most [steps+1] points, every point
    after the start passed the bounds check, and when it stops early the
    step taken from its last point is the one that fails the bounds check
    (that point is not appended). *)
Theorem trace_bounded_and_stop (cos sin : Q -> Q) (pi : Q) (inb : Q -> Q -> bool)
    (cfg : Config) (x y : Q) :
  let pts := trace cos sin pi inb cfg x y in
  let k := Z.to_nat (steps_per_line cfg) in
  (length pts <= S k)%nat /\
  Forall (fun p => inb (fst p) (snd p) = true) (tl pts) /\
  ((length pts < S k)%nat ->
   let nxt := flow_step cos sin pi cfg (fst (last pts (x, y))) (snd (last pts (x, y))) in
   inb (fst nxt) (snd nxt) = false).
Proof.
  unfold trace; simpl. split; [|split].
  - pose proof (trace_steps_length cos sin pi inb cfg (Z.to_nat (steps_per_line cfg)) x y). lia.
  - apply trace_steps_inside.
  - intros Hl. apply trace_steps_early_stop. lia.
Qed.

(** The configuration of the C3 counterexample: a 10 x 10 canvas, steps of
    length 3 and [angle_turns = 0], so the heading is 0 whatever the noise,
    and only [cos 0 = 1] and [sin 0 = 0] are used. *)
Definition cfg_small : Config :=
  MkConfig 10 10 0 42 5 3 (1 # 100) 1 0.

(** C3 counterexample: from [(5,5)] the trace goes to [(8,5)] and stops at
    the next step [(11,5)]; it stopped early, and its last point [(8,5)]
    passes the bounds check. *)
Lemma trace_stops_early_last_inside :
  let pts := trace_flowfield (fun _ => 1) (fun _ => 0) 3 cfg_small 5 5 in
  (length pts < S (Z.to_nat (steps_per_line cfg_small)))%nat /\
  inside cfg_small (fst (last pts (0, 0))) (snd (last pts (0, 0))) = true.
Proof. vm_compute. split; [repeat constructor | reflexivity]. Qed.

(** C6 counterexample: with [steps_per_line = 0] the trace is the single
    start point. *)
Lemma trace_single_point :
  length (trace_flowfield (fun _ => 1) (fun _ => 0) 3
            (MkConfig 10 10 0 42 0 3 (1 # 100) 1 1) 5 5) = 1%nat.
Proof. reflexivity. Qed.

(** C6 (as amended): a trace has at least one point (the start); it has
    exactly one point when [steps = 0] or the first step leaves the bounds;
    and only traces of at least 8 points are emitted as polylines. *)
Theorem trace_nonempty_and_emitted (cos sin : Q -> Q) (pi : Q) (inb : Q -> Q -> bool)
    (cfg : Config) (x y : Q) :
  (1 <= length (trace cos sin pi inb cfg x y))%nat /\
  (length (trace cos sin pi inb cfg x y) = 1%nat <->
   Z.to_nat (steps_per_line cfg) = 0%nat \/
   inb (fst (flow_step cos sin pi cfg x y)) (snd (flow_step cos sin pi cfg x y)) = false) /\
  (forall pl, emitted_polyline (trace cos sin pi inb cfg x y) = Some pl ->
              pl = trace cos sin pi inb cfg x y /\ (8 <= length pl)%nat).
Proof.
  split; [simpl; lia|]. split.
  - unfold trace. cbn [length].
    destruct (Z.to_nat (steps_per_line cfg)) as [|k].
    + cbn [trace_steps length]. split; [left; reflexivity | reflexivity].
    + cbn [trace_steps].
      destruct (flow_step cos sin pi cfg x y) as [x' y'] eqn:E. cbn [fst snd].
      destruct (inb x' y'); cbn [negb length].
      * split; [lia | intros [H|H]; discriminate].
      * split; [right; reflexivity | reflexivity].
  - intros pl. unfold emitted_polyline.
    destruct (8 <=? length (trace cos sin pi inb cfg x y))%nat eqn:E; [|discriminate].
    intros H. injection H as <-. split; [reflexivity | apply Nat.leb_le; exact E].
Qed.

(** C8: when every position the particle reaches passes the bounds check,
    the trace has exactly [steps+1] points. *)
Theorem trace_all_inside_length (cos sin : Q -> Q) (pi : Q) (inb : Q -> Q -> bool)
    (cfg : Config) (x y : Q) :
  (0 <= steps_per_line cfg)%Z ->
  Forall (fun p => inb (fst p) (snd p) = true)
    (free_path cos sin pi cfg (Z.to_nat (steps_per_line cfg)) x y) ->
  Z.of_nat (length (trace cos sin pi inb cfg x y)) = (steps_per_line cfg + 1)%Z.
Proof.
  intros Hs Hf. unfold trace. simpl length.
  rewrite (trace_steps_free cos sin pi inb cfg _ x y Hf), free_path_length. lia.
Qed.

Lemma trace_all_inside_length_witness :
  (0 <= steps_per_line cfg_small)%Z /\
  Forall (fun p => (fun _ _ => true) (fst p) (snd p) = true)
    (free_path (fun _ => 0) (fun _ => 1) 3 cfg_small
       (Z.to_nat (steps_per_line cfg_small)) 5 5) /\
  Z.of_nat (length (trace (fun _ => 0) (fun _ => 1) 3 (fun _ _ => true) cfg_small 5 5))
  = (steps_per_line cfg_small + 1)%Z.
Proof.
  assert (Hs : (0 <= steps_per_line cfg_small)%Z) by (simpl; lia).
  assert (Hf : Forall (fun p => (fun _ _ => true) (fst p) (snd p) = true)
                 (free_path (fun _ => 0) (fun _ => 1) 3 cfg_small
                    (Z.to_nat (steps_per_line cfg_small)) 5 5))
    by (apply Forall_forall; intros; reflexivity).
  split; [exact Hs | split; [exact Hf|]].
  apply trace_all_inside_length; [exact Hs | exact Hf].
Defined.

(** ** Catmull-Rom blobs *)

Lemma cr_loop_closed pts tension idx :
  cr_loop pts true tension idx
  = map (fun i => cr_segment pts true tension (Z.of_nat i)) idx.
Proof.
  induction idx as [|i idx IH]; simpl; [reflexivity|]. rewrite IH. reflexivity.
Qed.

Lemma blob_ring_length cos sin pi center base_r ang0 seed scale oct n_points roughness :
  length (blob_ring cos sin pi center base_r ang0 seed scale oct n_points roughness)
  = Z.to_nat n_points.
Proof.
  unfold blob_ring. destruct center as [cx cy].
  rewrite length_map, length_seq. reflexivity.
Qed.

(** The result is a list of [n] segments in which each segment ends where
    the next one, cyclically, starts. *)
Definition closed_loop (r : result (list bezier)) (n : nat) : Prop :=
  exists segs, r = Ok segs /\ length segs = n /\
    forall i, (i < n)%nat ->
      seg_end (nth i segs ((0, 0), (0, 0), (0, 0), (0, 0)))
      = seg_start (nth ((i + 1) mod n) segs ((0, 0), (0, 0), (0, 0), (0, 0))).

Lemma catmull_rom_closed_core pts tension :
  (4 <= length pts)%nat ->
  closed_loop (catmull_rom_to_beziers pts true tension) (length pts).
Proof.
  intros H. unfold catmull_rom_to_beziers.
  replace (length pts <? 4)%nat with false by (symmetry; apply Nat.ltb_ge; lia).
  rewrite cr_loop_closed.
  set (n := length pts) in *.
  set (f := fun i => cr_segment pts true tension (Z.of_nat i)).
  exists (map f (seq 0 n)). split; [reflexivity|].
  split; [rewrite length_map, length_seq; reflexivity|].
  intros i Hi.
  assert (Hj : ((i + 1) mod n < n)%nat) by (apply Nat.mod_upper_bound; lia).
  rewrite (nth_indep _ _ (f 0%nat)) by (rewrite length_map, length_seq; lia).
  rewrite (nth_indep _ ((0, 0), (0, 0), (0, 0), (0, 0)) (f 0%nat))
    by (rewrite length_map, length_seq; lia).
  rewrite !map_nth, !seq_nth by lia. simpl Nat.add.
  unfold f, seg_end, seg_start, cr_segment. cbn [fst snd].
  fold n. f_equal.
  rewrite Nat2Z.inj_mod, Zmod_mod, Nat2Z.inj_add. reflexivity.
Qed.

(** C2: a closed Catmull-Rom conversion of a ring of [n >= 4] points gives
    [n] segments, segment [i] ending exactly where segment [(i+1) mod n]
    starts; in particular for every blob with [n_points >= 4]. *)
Theorem catmull_rom_closed_loop :
  (forall (pts : list point) (tension : Q),
     (4 <= length pts)%nat ->
     closed_loop (catmull_rom_to_beziers pts true tension) (length pts)) /\
  (forall (cos sin : Q -> Q) (pi : Q) (center : point) (base_r ang0 : Q) (seed : Z)
          (scale : Q) (oct n_points : Z) (roughness tension : Q),
     (4 <= n_points)%Z ->
     closed_loop (blob_segments cos sin pi center base_r ang0 seed scale oct n_points
                    roughness tension) (Z.to_nat n_points)).
Proof.
  split.
  - intros pts tension H. apply catmull_rom_closed_core. exact H.
  - intros cos sin pi center base_r ang0 seed scale oct n_points roughness tension H.
    unfold blob_segments.
    rewrite <- (blob_ring_length cos sin pi center base_r ang0 seed scale oct n_points roughness).
    apply catmull_rom_closed_core.
    rewrite blob_ring_length. lia.
Qed.

Definition square_ring : list point := [(0, 0); (1, 0); (1, 1); (0, 1)].

Lemma catmull_rom_closed_loop_witness :
  (4 <= length square_ring)%nat /\
  closed_loop (catmull_rom_to_beziers square_ring true 1) (length square_ring) /\
  (4 <= 6)%Z /\
  closed_loop (blob_segments (fun _ => 1) (fun _ => 0) 3 (50, 50) 20 0 7 (1 # 100) 5 6
                 (1 # 2) (9 # 10)) (Z.to_nat 6).
Proof.
  split; [simpl; lia|]. split; [apply (proj1 catmull_rom_closed_loop); simpl; lia|].
  split; [lia|]. apply (proj2 catmull_rom_closed_loop). lia.
Defined.

(** C9: a blob with fewer than 4 ring points raises [ValueError] from
    [catmull_rom_to_beziers] before any segment is built. *)
Theorem blob_segments_too_few (cos sin : Q -> Q) (pi : Q) (center : point)
    (base_r ang0 : Q) (seed : Z) (scale : Q) (oct n_points : Z) (roughness tension : Q) :
  (n_points < 4)%Z ->
  blob_segments cos sin pi center base_r ang0 seed scale oct n_points roughness tension
  = ValueError "Need at least 4 points for Catmull-Rom.".
Proof.
  intros H. unfold blob_segments, catmull_rom_to_beziers.
  rewrite blob_ring_length.
  replace (Z.to_nat n_points <? 4)%nat with true by (symmetry; apply Nat.ltb_lt; lia).
  reflexivity.
Qed.

Lemma blob_segments_too_few_witness :
  (3 < 4)%Z /\
  blob_segments (fun _ => 1) (fun _ => 0) 3 (50, 50) 20 0 7 (1 # 100) 5 3 (1 # 2) (9 # 10)
  = ValueError "Need at least 4 points for Catmull-Rom.".
Proof.
  split; [lia|]. apply blob_segments_too_few. lia.
Defined.

(** ** Further properties of the noise field *)

Lemma lerp_range_lt (a b t : Q) :
  0 <= a < 1 -> 0 <= b < 1 -> 0 <= t <= 1 -> 0 <= _lerp a b t < 1.
Proof.
  intros Ha Hb Ht. unfold _lerp.
  assert (E : a + (b - a) * t == a * (1 - t) + b * t) by ring.
  rewrite E.
  assert (0 <= a * (1 - t)) by (apply Qmult_le_0_compat; lra).
  assert (0 <= b * t) by (apply Qmult_le_0_compat; lra).
  destruct (Qlt_le_dec 0 t) as [Hp|Hz].
  - assert (a * (1 - t) <= 1 - t) by nra.
    assert (b * t < t) by nra.
    lra.
  - assert (Et : t == 0) by lra. rewrite Et. lra.
Qed.

Lemma value_noise_range_lt (x y : Q) (seed : Z) :
  0 <= value_noise_2d x y seed < 1.
Proof.
  unfold value_noise_2d.
  pose proof (floor_frac_range x) as Hx. pose proof (floor_frac_range y) as Hy.
  pose proof (fade_range _ (proj1 Hx) (proj2 Hx)) as Fx.
  pose proof (fade_range _ (proj1 Hy) (proj2 Hy)) as Fy.
  repeat match goal with
  | |- context [_rand2 ?a ?b ?c] =>
      destruct (rand2_range a b c) as [? ?];
      generalize dependent (_rand2 a b c); intros
  end.
  apply lerp_range_lt; [apply lerp_range_lt; lra .. | lra].
Qed.

(** [value_noise_2d] returns a value in [0,1): it never reaches 1 (the
    comment [# [0,1)] of [organic_with_blobs.py]). *)
Theorem value_noise_2d_half_open (x y : Q) (seed : Z) :
  0 <= value_noise_2d x y seed /\ value_noise_2d x y seed < 1.
Proof. exact (value_noise_range_lt x y seed). Qed.

(** The loop invariant of [fbm_2d] once an octave has run: the total stays
    strictly below the normalisation sum. *)
Definition fbm_inv_lt (s : fbm_state) : Prop :=
  0 < amp s /\ 0 <= total s /\ total s < norm s.

Lemma fbm_step_inv_lt x y seed lac gain o s :
  0 < gain -> 0 < amp s -> 0 <= total s <= norm s ->
  fbm_inv_lt (fbm_step x y seed lac gain o s).
Proof.
  intros Hg Ha [Ht0 Ht1]. unfold fbm_inv_lt, fbm_step; simpl.
  pose proof (value_noise_range_lt (x * freq s) (y * freq s) (seed + 1013 * o)) as [V0 V1].
  set (v := value_noise_2d _ _ _) in *.
  assert (0 <= amp s * v) by (apply Qmult_le_0_compat; lra).
  assert (amp s * v < amp s) by nra.
  assert (0 < amp s * gain) by (apply Qmult_lt_0_compat; lra).
  lra.
Qed.

Lemma fbm_loop_inv_lt x y seed lac gain o k s :
  0 < gain -> fbm_inv_lt s -> fbm_inv_lt (fbm_loop x y seed lac gain o k s).
Proof.
  intros Hg. revert o s.
  induction k as [|k IH]; intros o s (Ha & Ht0 & Ht1); simpl; [repeat split; lra|].
  apply IH, fbm_step_inv_lt; [assumption | assumption | lra].
Qed.

Lemma fbm_loop_norm_ge x y seed lac gain o k s :
  0 < gain -> 0 < amp s -> norm s <= norm (fbm_loop x y seed lac gain o k s).
Proof.
  intros Hg. revert o s.
  induction k as [|k IH]; intros o s Ha; simpl; [lra|].
  eapply Qle_trans; [|apply IH; simpl; apply Qmult_lt_0_compat; assumption].
  simpl. lra.
Qed.

Lemma fbm_2d_pos_octaves_range (x y : Q) (seed octaves : Z) (lacunarity gain : Q) :
  (1 <= octaves)%Z -> 0 < gain ->
  0 <= fbm_2d x y seed octaves lacunarity gain /\
  fbm_2d x y seed octaves lacunarity gain < 1.
Proof.
  intros Ho Hg. unfold fbm_2d.
  destruct (Z.to_nat octaves) as [|k] eqn:Ek; [lia|].
  cbn [fbm_loop].
  set (s0 := fbm_step x y seed lacunarity gain 0 (FbmState 1 1 0 0)).
  assert (H0 : fbm_inv_lt s0)
    by (apply fbm_step_inv_lt; simpl; [assumption | lra | lra]).
  assert (Hn0 : 1 <= norm s0) by (unfold s0, fbm_step; simpl; lra).
  pose proof (fbm_loop_norm_ge x y seed lacunarity gain 1 k s0 Hg (proj1 H0)) as Hn.
  pose proof (fbm_loop_inv_lt x y seed lacunarity gain 1 k s0 Hg H0) as (Ha & Ht0 & Ht1).
  set (s := fbm_loop _ _ _ _ _ _ _ _) in *.
  assert (E : Qmax (norm s) fbm_eps == norm s)
    by (apply Q.max_l; unfold fbm_eps in *; lra).
  rewrite E. split.
  - apply Qle_shift_div_l; [lra|]. rewrite Qmult_0_l. exact Ht0.
  - apply Qlt_shift_div_r; [lra|]. rewrite Qmult_1_l. exact Ht1.
Qed.

(** For [octaves >= 1] and any positive gain, whatever the lacunarity,
    [fbm_2d] lies in [0,1): the gain need not be below 1, and the value 1
    is never reached. *)
Theorem fbm_2d_half_open (x y : Q) (seed octaves : Z) (lacunarity gain : Q) :
  (1 <= octaves)%Z -> 0 < gain ->
  0 <= fbm_2d x y seed octaves lacunarity gain /\
  fbm_2d x y seed octaves lacunarity gain < 1.
Proof. apply fbm_2d_pos_octaves_range. Qed.

Lemma fbm_2d_half_open_witness :
  ((1 <= 3)%Z /\ 0 < 3 # 2) /\
  0 <= fbm_2d (1 # 3) (5 # 7) 9 3 (1 # 2) (3 # 2) /\
  fbm_2d (1 # 3) (5 # 7) 9 3 (1 # 2) (3 # 2) < 1.
Proof.
  split; [split; [lia | lra]|].
  apply fbm_2d_half_open; [lia | lra].
Defined.

(** The body of [value_noise_2d] for the lattice cell [(x0, y0)] at the
    fractional offsets [(fx, fy)]. *)
Definition value_noise_cell (x0 y0 : Z) (fx fy : Q) (seed : Z) : Q :=
  let x1 := (x0 + 1)%Z in
  let y1 := (y0 + 1)%Z in
  let sx := _fade fx in
  let sy := _fade fy in
  _lerp (_lerp (_rand2 x0 y0 seed) (_rand2 x1 y0 seed) sx)
        (_lerp (_rand2 x0 y1 seed) (_rand2 x1 y1 seed) sx) sy.

(** [value_noise_2d] interpolates inside the cell of [(floor x, floor y)],
    and the interpolation has no seam at lattice lines: a cell evaluated
    at offset 1 gives the same value as its neighbour at offset 0, along
    both axes. *)
Theorem value_noise_no_seams :
  (forall x y seed, value_noise_2d x y seed
     = value_noise_cell (Qfloor x) (Qfloor y) (x - inject_Z (Qfloor x))
                        (y - inject_Z (Qfloor y)) seed) /\
  (forall x0 y0 fy seed,
     value_noise_cell x0 y0 1 fy seed == value_noise_cell (x0 + 1) y0 0 fy seed) /\
  (forall x0 y0 fx seed,
     value_noise_cell x0 y0 fx 1 seed == value_noise_cell x0 (y0 + 1) fx 0 seed).
Proof.
  split; [reflexivity|]. split.
  - intros. unfold value_noise_cell, _lerp, _fade. ring.
  - intros. unfold value_noise_cell, _lerp, _fade. ring.
Qed.

(** ** Further properties of [catmull_rom_to_beziers] *)

Lemma cr_loop_open pts tension s k :
  (s + k <= length pts - 1)%nat ->
  cr_loop pts false tension (seq s k)
  = map (fun i => cr_segment pts false tension (Z.of_nat i)) (seq s k).
Proof.
  revert s. induction k as [|k IH]; intros s Hk; [reflexivity|].
  cbn [seq cr_loop map negb andb].
  destruct (Z.of_nat s =? Z.of_nat (length pts) - 2)%Z eqn:E.
  - apply Z.eqb_eq in E. replace k with O by lia. reflexivity.
  - f_equal. apply IH. lia.
Qed.

Lemma cr_loop_in pts closed tension idx s :
  In s (cr_loop pts closed tension idx) ->
  exists i, s = cr_segment pts closed tension i.
Proof.
  induction idx as [|i idx IH]; simpl; [contradiction|].
  intros [H|H]; [eauto|].
  destruct (negb closed && _)%bool; [contradiction | auto].
Qed.

Lemma py_index_small pts (i : nat) :
  (i < length pts)%nat -> py_index pts (Z.of_nat i) = nth i pts (0, 0).
Proof. intros H. unfold py_index. rewrite Nat2Z.id. reflexivity. Qed.

(** An open curve through [n >= 4] points gives [n-1] segments; segment
    [i] runs from point [i] to point [i+1], so consecutive segments join and
    the curve goes from the first point to the last. *)
Theorem catmull_rom_open_chain (pts : list point) (tension : Q) :
  (4 <= length pts)%nat ->
  exists segs, catmull_rom_to_beziers pts false tension = Ok segs /\
    length segs = (length pts - 1)%nat /\
    forall i, (i < length pts - 1)%nat ->
      seg_start (nth i segs ((0, 0), (0, 0), (0, 0), (0, 0))) = nth i pts (0, 0) /\
      seg_end (nth i segs ((0, 0), (0, 0), (0, 0), (0, 0))) = nth (S i) pts (0, 0).
Proof.
  intros H. unfold catmull_rom_to_beziers.
  replace (length pts <? 4)%nat with false by (symmetry; apply Nat.ltb_ge; lia).
  rewrite cr_loop_open by lia.
  set (f := fun i => cr_segment pts false tension (Z.of_nat i)).
  eexists. split; [reflexivity|].
  split; [rewrite length_map, length_seq; reflexivity|].
  intros i Hi.
  rewrite (nth_indep _ _ (f 0%nat)) by (rewrite length_map, length_seq; lia).
  rewrite map_nth, seq_nth by lia. simpl Nat.add.
  unfold f, seg_end, seg_start, cr_segment. cbn [fst snd].
  split.
  - rewrite Z.mod_small by lia. apply py_index_small. lia.
  - rewrite Z.min_l by lia.
    replace (Z.of_nat i + 1)%Z with (Z.of_nat (S i)) by lia.
    apply py_index_small. lia.
Qed.

Lemma catmull_rom_open_chain_witness :
  (4 <= length square_ring)%nat /\
  exists segs, catmull_rom_to_beziers square_ring false 1 = Ok segs /\
    length segs = (length square_ring - 1)%nat /\
    forall i, (i < length square_ring - 1)%nat ->
      seg_start (nth i segs ((0, 0), (0, 0), (0, 0), (0, 0))) = nth i square_ring (0, 0) /\
      seg_end (nth i segs ((0, 0), (0, 0), (0, 0), (0, 0))) = nth (S i) square_ring (0, 0).
Proof.
  split; [simpl; lia|]. apply catmull_rom_open_chain. simpl; lia.
Defined.

(** A closed curve passes through every ring point in order: the start
    points of its segments are exactly the input points. *)
Theorem catmull_rom_closed_starts (pts : list point) (tension : Q) :
  (4 <= length pts)%nat ->
  exists segs, catmull_rom_to_beziers pts true tension = Ok segs /\
    map seg_start segs = pts.
Proof.
  intros H. unfold catmull_rom_to_beziers.
  replace (length pts <? 4)%nat with false by (symmetry; apply Nat.ltb_ge; lia).
  rewrite cr_loop_closed.
  eexists. split; [reflexivity|].
  rewrite map_map.
  apply nth_ext with (d := (0, 0)) (d' := (0, 0));
    [rewrite length_map, length_seq; reflexivity|].
  intros i Hi. rewrite length_map, length_seq in Hi.
  set (g := fun j : nat => seg_start (cr_segment pts true tension (Z.of_nat j))).
  rewrite (nth_indep _ _ (g 0%nat)) by (rewrite length_map, length_seq; lia).
  rewrite map_nth, seq_nth by lia. simpl Nat.add. unfold g.
  unfold seg_start, cr_segment. cbn [fst snd].
  rewrite Z.mod_small by lia. apply py_index_small. exact Hi.
Qed.

Lemma catmull_rom_closed_starts_witness :
  (4 <= length square_ring)%nat /\
  exists segs, catmull_rom_to_beziers square_ring true (3 # 4) = Ok segs /\
    map seg_start segs = square_ring.
Proof.
  split; [simpl; lia|]. apply catmull_rom_closed_starts. simpl; lia.
Defined.

(** With [tension = 0] every segment degenerates to a straight line: its
    control points [c1] and [c2] coincide with its end points [p1] and [p2]
    (open or closed). *)
Theorem catmull_rom_zero_tension (pts : list point) (closed : bool) (segs : list bezier) :
  catmull_rom_to_beziers pts closed 0 = Ok segs ->
  Forall (fun '(p1, c1, c2, p2) =>
            fst c1 == fst p1 /\ snd c1 == snd p1 /\
            fst c2 == fst p2 /\ snd c2 == snd p2) segs.
Proof.
  unfold catmull_rom_to_beziers.
  destruct (length pts <? 4)%nat; [discriminate|].
  intros Hs. injection Hs as <-.
  apply Forall_forall. intros s Hin.
  destruct (cr_loop_in _ _ _ _ _ Hin) as [i ->].
  unfold cr_segment. cbn [fst snd]. repeat split; ring.
Qed.

Lemma catmull_rom_zero_tension_witness :
  catmull_rom_to_beziers square_ring true 0
  = Ok (cr_loop square_ring true 0 (seq 0 4)) /\
  Forall (fun '(p1, c1, c2, p2) =>
            fst c1 == fst p1 /\ snd c1 == snd p1 /\
            fst c2 == fst p2 /\ snd c2 == snd p2) (cr_loop square_ring true 0 (seq 0 4)).
Proof.
  split; [reflexivity|]. apply (catmull_rom_zero_tension square_ring true). reflexivity.
Defined.

(** ** Blob rings and blob paths *)

Lemma fbm_2d_unit_any_octaves x y seed octaves lacunarity gain :
  0 < gain -> 0 <= fbm_2d x y seed octaves lacunarity gain <= 1.
Proof.
  intros Hg. destruct (Z.le_gt_cases 1 octaves) as [Ho|Ho].
  - pose proof (fbm_2d_pos_octaves_range x y seed octaves lacunarity gain Ho Hg). lra.
  - unfold fbm_2d. replace (Z.to_nat octaves) with O by lia.
    cbn [fbm_loop total norm]. assert (E : 0 / Qmax 0 fbm_eps == 0) by reflexivity.
    rewrite E. lra.
Qed.

(** Every ring point of a blob lies at a distance [r] from the centre with
    [base_r * (1 - roughness) <= r <= base_r * (1 + roughness)], for a
    non-negative radius, a roughness in [0,1], and [cos] and [sin] with
    [cos a ^ 2 + sin a ^ 2 = 1]; with roughness 0 the ring is the circle of
    radius [base_r]. *)
Theorem blob_ring_radius (cos sin : Q -> Q) (pi : Q) (cx cy base_r ang0 : Q) (seed : Z)
    (scale : Q) (oct n_points : Z) (roughness : Q) :
  (forall a, cos a * cos a + sin a * sin a == 1) ->
  0 <= base_r -> 0 <= roughness <= 1 ->
  forall i, (i < Z.to_nat n_points)%nat ->
  let p := nth i (blob_ring cos sin pi (cx, cy) base_r ang0 seed scale oct n_points roughness)
             (0, 0) in
  exists r, base_r * (1 - roughness) <= r <= base_r * (1 + roughness) /\
            (fst p - cx) * (fst p - cx) + (snd p - cy) * (snd p - cy) == r * r.
Proof.
  intros Htrig Hb Hr i Hi. unfold blob_ring.
  set (f := fun i : nat => _).
  rewrite (nth_indep _ _ (f 0%nat)) by (rewrite length_map, length_seq; lia).
  rewrite map_nth, seq_nth by lia. simpl Nat.add. unfold f. cbn [fst snd].
  set (a := ang0 + _).
  set (n := fbm_2d _ _ _ _ _ _).
  assert (Hn : 0 <= n <= 1) by (apply fbm_2d_unit_any_octaves; reflexivity).
  exists (base_r * (1 + (n - (1 # 2)) * 2 * roughness)). split.
  - assert (0 <= base_r * (roughness * (n * 2))) by
      (apply Qmult_le_0_compat; [lra | apply Qmult_le_0_compat; lra]).
    assert (0 <= base_r * (roughness * ((1 - n) * 2))) by
      (apply Qmult_le_0_compat; [lra | apply Qmult_le_0_compat; lra]).
    split; nra.
  - specialize (Htrig a).
    set (r := base_r * _).
    assert (E : (cx + cos a * r - cx) * (cx + cos a * r - cx)
                + (cy + sin a * r - cy) * (cy + sin a * r - cy)
                == (cos a * cos a + sin a * sin a) * (r * r)) by ring.
    rewrite E, Htrig. ring.
Qed.

Lemma blob_ring_radius_witness :
  (forall a : Q, (fun _ : Q => 1) a * (fun _ : Q => 1) a
                 + (fun _ : Q => 0) a * (fun _ : Q => 0) a == 1) /\
  0 <= 20 /\ 0 <= 1 # 2 <= 1 /\ (2 < Z.to_nat 6)%nat /\
  let p := nth 2 (blob_ring (fun _ => 1) (fun _ => 0) 3 (50, 50) 20 0 7 (1 # 100) 5 6 (1 # 2))
             (0, 0) in
  exists r, 20 * (1 - (1 # 2)) <= r <= 20 * (1 + (1 # 2)) /\
            (fst p - 50) * (fst p - 50) + (snd p - 50) * (snd p - 50) == r * r.
Proof.
  assert (Ht : forall a : Q, (fun _ : Q => 1) a * (fun _ : Q => 1) a
                 + (fun _ : Q => 0) a * (fun _ : Q => 0) a == 1) by (intros; reflexivity).
  split; [exact Ht|]. split; [lra|]. split; [lra|]. split; [simpl; lia|].
  apply (blob_ring_radius (fun _ => 1) (fun _ => 0) 3 50 50 20 0 7 (1 # 100) 5 6 (1 # 2));
    [exact Ht | lra | lra | simpl; lia].
Defined.

Lemma last_as_nth {A} (l : list A) (d : A) : last l d = nth (length l - 1) l d.
Proof.
  induction l as [|a l IH]; [reflexivity|].
  destruct l as [|b l]; [reflexivity|].
  change (last (b :: l) d = nth (length (b :: l)) (a :: b :: l) d).
  rewrite IH.
  assert (E : (length (b :: l) - 1 = length l)%nat) by (simpl; lia).
  rewrite E. reflexivity.
Qed.

Definition zero_bezier : bezier := ((0, 0), (0, 0), (0, 0), (0, 0)).

Section PathFormat.
(** The format [f"{v:.2f}"] of one coordinate. *)
Variable fmt2 : Q -> string.

Definition fmt_pt (p : point) : string := (fmt2 (fst p) ++ "," ++ fmt2 (snd p))%string.

(** [f"C {c1[0]:.2f},{c1[1]:.2f} {c2[0]:.2f},{c2[1]:.2f} {p2[0]:.2f},{p2[1]:.2f}"] *)
Definition path_cmd (s : bezier) : string :=
  let '(_, c1, c2, p2) := s in
  ("C " ++ fmt_pt c1 ++ " " ++ fmt_pt c2 ++ " " ++ fmt_pt p2)%string.

(** The parts [d] of the path, from [start = segs[0][0]] to ["Z"]. *)
Definition path_parts (segs : list bezier) : list string :=
  ("M " ++ fmt_pt (seg_start (hd zero_bezier segs)))%string :: map path_cmd segs ++ ["Z"%string].

(** [blob_path_d]: the ValueError of [catmull_rom_to_beziers] propagates;
    otherwise [" ".join(d)] (the segments are then at least 4, so
    [segs[0]] exists). *)
Definition blob_path_d (cos sin : Q -> Q) (pi : Q) (center : point) (base_r ang0 : Q)
    (seed : Z) (scale : Q) (oct n_points : Z) (roughness tension : Q) : result string :=
  match blob_segments cos sin pi center base_r ang0 seed scale oct n_points roughness tension with
  | ValueError m => ValueError m
  | Ok segs => Ok (String.concat " " (path_parts segs))
  end.

End PathFormat.

(** For [n_points >= 4] the path of a blob is ["M" start], then exactly
    [n_points] ["C"] commands, then ["Z"], and the last ["C"] command ends
    at the start point, so the closing ["Z"] adds no extra edge. *)
Theorem blob_path_d_structure (fmt2 : Q -> string) (cos sin : Q -> Q) (pi : Q)
    (center : point) (base_r ang0 : Q) (seed : Z) (scale : Q) (oct n_points : Z)
    (roughness tension : Q) :
  (4 <= n_points)%Z ->
  exists segs,
    blob_path_d fmt2 cos sin pi center base_r ang0 seed scale oct n_points roughness tension
    = Ok (String.concat " " (path_parts fmt2 segs)) /\
    path_parts fmt2 segs
    = ("M " ++ fmt_pt fmt2 (seg_start (hd zero_bezier segs)))%string
      :: map (path_cmd fmt2) segs ++ ["Z"%string] /\
    length segs = Z.to_nat n_points /\
    seg_end (last segs zero_bezier) = seg_start (hd zero_bezier segs).
Proof.
  intros H.
  assert (Hl : (4 <= length (blob_ring cos sin pi center base_r ang0 seed scale oct
                                n_points roughness))%nat)
    by (rewrite blob_ring_length; lia).
  destruct (catmull_rom_closed_core _ tension Hl) as (segs & Hs & Hlen & Hcl).
  rewrite blob_ring_length in Hlen, Hcl.
  exists segs. unfold blob_path_d, blob_segments. rewrite Hs.
  split; [reflexivity|]. split; [reflexivity|]. split; [exact Hlen|].
  rewrite last_as_nth, Hlen.
  specialize (Hcl (Z.to_nat n_points - 1)%nat ltac:(lia)).
  replace (Z.to_nat n_points - 1 + 1)%nat with (Z.to_nat n_points) in Hcl by lia.
  rewrite Nat.Div0.mod_same in Hcl.
  unfold zero_bezier. rewrite Hcl. destruct segs; reflexivity.
Qed.

Lemma blob_path_d_structure_witness :
  (4 <= 5)%Z /\
  exists segs,
    blob_path_d (fun _ => "0.00"%string) (fun _ => 1) (fun _ => 0) 3 (50, 50) 20 0 7
      (1 # 100) 5 5 (1 # 2) (9 # 10)
    = Ok (String.concat " " (path_parts (fun _ => "0.00"%string) segs)) /\
    path_parts (fun _ => "0.00"%string) segs
    = ("M " ++ fmt_pt (fun _ => "0.00"%string) (seg_start (hd zero_bezier segs)))%string
      :: map (path_cmd (fun _ => "0.00"%string)) segs ++ ["Z"%string] /\
    length segs = Z.to_nat 5 /\
    seg_end (last segs zero_bezier) = seg_start (hd zero_bezier segs).
Proof.
  split; [lia|]. apply blob_path_d_structure. lia.
Defined.

(** ** Seed resolution: [_resolve_seed] *)

(** The values of a parsed TOML document. *)
#[warnings="-register-all"]
Inductive tval :=
| TInt (z : Z)
| TFloat (q : Q)
| TBool (b : bool)
| TStr (s : string)
| TList (l : list tval)
| TTable (t : list (string * tval)).

(** The exceptions the seed and colour code can raise. *)
Inductive py_exc :=
| PyValueError (msg : string)
| PyIntError (s : string)    (* [ValueError] of [int(s)] on a malformed string *)
| PyTypeError
| PyAttributeError.

Inductive outcome (A : Type) :=
| Ret : A -> outcome A
| Raise : py_exc -> outcome A.
Arguments Ret {A} _.
Arguments Raise {A} _.

(** [d.get(k)] on a TOML table (keys are unique). *)
Fixpoint tget (k : string) (t : list (string * tval)) : option tval :=
  match t with
  | [] => None
  | (k', v) :: t' => if String.eqb k k' then Some v else tget k t'
  end.

Definition missing_seed_msg : string :=
  "Missing [style].seed or [style].seedlist in config.toml".

Section ResolveSeed.
(** [int(s)] on a string: [None] when [s] is not an integer literal. *)
Variable int_of_str : string -> option Z.

Definition py_int_str (s : string) : outcome Z :=
  match int_of_str s with Some z => Ret z | None => Raise (PyIntError s) end.

(** [int(v)] on a TOML value: floats truncate toward zero. *)
Definition py_int (v : tval) : outcome Z :=
  match v with
  | TInt z => Ret z
  | TFloat q => Ret (Z.quot (Qnum q) (Zpos (Qden q)))
  | TBool b => Ret (if b then 1%Z else 0%Z)
  | TStr s => py_int_str s
  | TList _ | TTable _ => Raise PyTypeError
  end.

(** The part of [_resolve_seed] after the environment variable: the
    [[style]] table ([{}] when absent), its [seed], then its [seedlist]. *)
Definition seed_from_config (config : list (string * tval)) : outcome Z :=
  match match tget "style" config with Some v => v | None => TTable [] end with
  | TTable style =>
      match tget "seed" style with
      | Some v => py_int v
      | None =>
          match tget "seedlist" style with
          | Some (TList (v :: _)) => py_int v
          | _ => Raise (PyValueError missing_seed_msg)
          end
      end
  | _ => Raise PyAttributeError   (* [.get] on a non-table *)
  end.

(** [_resolve_seed(config)] with [os.getenv("GEN_SEED")] as [env]; an
    empty string is falsy. *)
Definition _resolve_seed (env : option string) (config : list (string * tval)) : outcome Z :=
  match env with
  | Some s => if negb (String.eqb s "") then py_int_str s else seed_from_config config
  | None => seed_from_config config
  end.
End ResolveSeed.

Lemma py_int_not_value_error int_of_str v msg :
  py_int int_of_str v <> Raise (PyValueError msg).
Proof.
  destruct v; simpl; try discriminate.
  unfold py_int_str. destruct (int_of_str s); discriminate.
Qed.

Lemma py_int_str_not_value_error int_of_str s msg :
  py_int_str int_of_str s <> Raise (PyValueError msg).
Proof. unfold py_int_str. destruct (int_of_str s); discriminate. Qed.

(** [_resolve_seed] raises its "Missing [style].seed or [style].seedlist"
    error exactly when [GEN_SEED] is unset or empty, the [[style]] table is
    absent or a table, it has no [seed], and its [seedlist] is not a
    non-empty list. *)
Theorem resolve_seed_missing_iff (int_of_str : string -> option Z) (env : option string)
    (config : list (string * tval)) :
  _resolve_seed int_of_str env config = Raise (PyValueError missing_seed_msg) <->
  (env = None \/ env = Some ""%string) /\
  exists style,
    (match tget "style" config with Some v => v | None => TTable [] end) = TTable style /\
    tget "seed" style = None /\
    (forall v l, tget "seedlist" style <> Some (TList (v :: l))).
Proof.
  assert (Hcfg : seed_from_config int_of_str config = Raise (PyValueError missing_seed_msg) <->
    exists style,
      (match tget "style" config with Some v => v | None => TTable [] end) = TTable style /\
      tget "seed" style = None /\
      (forall v l, tget "seedlist" style <> Some (TList (v :: l)))).
  { unfold seed_from_config.
    destruct (match tget "style" config with Some v => v | None => TTable [] end) as
      [z|q|b|s|l|style]; try (split; [discriminate | intros (st & Hst & _); discriminate]).
    split.
    - intros H. exists style. split; [reflexivity|].
      destruct (tget "seed" style) as [v|] eqn:Hs.
      + exfalso. exact (py_int_not_value_error _ _ _ H).
      + split; [reflexivity|]. intros v l Hl. rewrite Hl in H.
        exact (py_int_not_value_error _ _ _ H).
    - intros (st & Hst & Hs & Hl). injection Hst as <-. rewrite Hs.
      destruct (tget "seedlist" style) as [[| | | |[|v l]|]|]; try reflexivity.
      exfalso. exact (Hl v l eq_refl). }
  destruct env as [s|].
  - simpl. destruct (String.eqb_spec s "") as [->|Hne]; simpl.
    + rewrite Hcfg. split; [intros H; split; [right; reflexivity | exact H] | intros [_ H]; exact H].
    + split.
      * intros H. exfalso. exact (py_int_str_not_value_error _ _ _ H).
      * intros [[H|H] _]; [discriminate | injection H as H; contradiction].
  - simpl. rewrite Hcfg. split; [intros H; split; [left; reflexivity | exact H] | intros [_ H]; exact H].
Qed.

(** ** The colour check of [generate_svg] *)

(** [sorted(required)]. *)
Definition required_colors : list string := ["bg"; "c1"; "c2"; "c3"]%string.

(** [repr] of a list of plain strings, as in [f"{sorted(missing)}"]. *)
Definition py_repr_str_list (l : list string) : string :=
  ("[" ++ String.concat ", " (map (fun s => "'" ++ s ++ "'") l) ++ "]")%string.

(** [missing = required - set(colors.keys())], already in sorted order. *)
Definition missing_colors (colors : list (string * string)) : list string :=
  filter (fun k => negb (existsb (String.eqb k) (map fst colors))) required_colors.

Definition check_colors (colors : list (string * string)) : result unit :=
  match missing_colors colors with
  | [] => Ok tt
  | missing =>
      ValueError ("Missing colors: " ++ py_repr_str_list missing ++
                  ". Expected keys: " ++ py_repr_str_list required_colors)%string
  end.

Lemma filter_all_false {A} (f : A -> bool) (l : list A) :
  (forall x, In x l -> f x = false) -> filter f l = [].
Proof.
  induction l as [|a l IH]; intros H; simpl; [reflexivity|].
  rewrite (H a (or_introl eq_refl)). apply IH. intros x Hx. apply H. right. exact Hx.
Qed.

(** [generate_svg] passes its colour check exactly when the keys [bg],
    [c1], [c2] and [c3] are all present; other keys are ignored. *)
Theorem check_colors_ok_iff (colors : list (string * string)) :
  check_colors colors = Ok tt <->
  forall k, In k required_colors -> In k (map fst colors).
Proof.
  assert (Hm : missing_colors colors = [] <->
               forall k, In k required_colors -> In k (map fst colors)).
  { unfold missing_colors. split.
    - intros H k Hk. destruct (existsb (String.eqb k) (map fst colors)) eqn:E.
      + apply existsb_exists in E as (k' & Hin & Heq).
        apply String.eqb_eq in Heq. subst. exact Hin.
      + exfalso.
        assert (Hf : In k (filter (fun k => negb (existsb (String.eqb k) (map fst colors)))
                              required_colors))
          by (apply filter_In; rewrite E; auto).
        rewrite H in Hf. contradiction.
    - intros H. apply filter_all_false. intros k Hk.
      assert (E : existsb (String.eqb k) (map fst colors) = true)
        by (apply existsb_exists; exists k; split; [apply H, Hk | apply String.eqb_refl]).
      rewrite E. reflexivity. }
  unfold check_colors. rewrite <- Hm.
  destruct (missing_colors colors); split; congruence.
Qed.

(** ** The line loop of [generate_flowfield_svg] *)

(** [rng.uniform(a, b)] is [a + (b - a) * rng.random()]. *)
Definition uniform (a b u : Q) : Q := a + (b - a) * u.

(** The [Config] fields of the line loop besides those of the tracer. *)
Record FlowRun := MkFlowRun {
  run_cfg : Config;
  n_lines : Z;
  stroke_opacity_min : Q;
  stroke_opacity_max : Q }.

Section LineLoop.
Variables (cos sin : Q -> Q) (pi : Q).
(** [rand i] is the [i]-th result of [rng.random()] of [random.Random(cfg.seed)]. *)
Variable rand : nat -> Q.

(** [for _ in range(k)] of [generate_flowfield_svg], from draw number [i]:
    the polylines drawn with their opacities, and the next draw number. *)
Fixpoint draw_lines (run : FlowRun) (k : nat) (i : nat) : list (list point * Q) * nat :=
  let cfg := run_cfg run in
  match k with
  | O => ([], i)
  | S k' =>
      let x := uniform (margin cfg) (width cfg - margin cfg) (rand i) in
      let y := uniform (margin cfg) (height cfg - margin cfg) (rand (S i)) in
      let pts := trace_flowfield cos sin pi cfg x y in
      if (8 <=? length pts)%nat then
        let op := uniform (stroke_opacity_min run) (stroke_opacity_max run) (rand (S (S i))) in
        let '(rest, j) := draw_lines run k' (S (S (S i))) in
        ((pts, op) :: rest, j)
      else draw_lines run k' (S (S i))
  end.

Definition flowfield_lines (run : FlowRun) : list (list point * Q) :=
  fst (draw_lines run (Z.to_nat (n_lines run)) 0).

End LineLoop.

Lemma uniform_range a b u : a <= b -> 0 <= u < 1 -> a <= uniform a b u <= b.
Proof.
  intros Hab Hu. unfold uniform.
  assert (0 <= (b - a) * u) by (apply Qmult_le_0_compat; lra).
  assert ((b - a) * u <= b - a) by nra.
  lra.
Qed.

Lemma draw_lines_props cos sin pi rand run k i :
  (forall j, 0 <= rand j < 1) ->
  margin (run_cfg run) <= width (run_cfg run) - margin (run_cfg run) ->
  margin (run_cfg run) <= height (run_cfg run) - margin (run_cfg run) ->
  stroke_opacity_min run <= stroke_opacity_max run ->
  (length (fst (draw_lines cos sin pi rand run k i)) <= k)%nat /\
  Forall (fun '(pts, op) =>
            (8 <= length pts)%nat /\
            Forall (fun p => inside (run_cfg run) (fst p) (snd p) = true) pts /\
            stroke_opacity_min run <= op <= stroke_opacity_max run)
         (fst (draw_lines cos sin pi rand run k i)).
Proof.
  intros Hr Hw Hh Ho. revert i.
  induction k as [|k IH]; intros i; [simpl; split; [lia | constructor]|].
  cbn [draw_lines].
  set (cfg := run_cfg run) in *.
  set (x := uniform _ _ (rand i)). set (y := uniform _ _ (rand (S i))).
  assert (Hx : margin cfg <= x <= width cfg - margin cfg) by (apply uniform_range; auto).
  assert (Hy : margin cfg <= y <= height cfg - margin cfg) by (apply uniform_range; auto).
  assert (Hin : Forall (fun p => inside cfg (fst p) (snd p) = true)
                       (trace_flowfield cos sin pi cfg x y)).
  { unfold trace_flowfield, trace. constructor.
    - unfold inside. simpl.
      repeat rewrite Qle_bool_iff in *.
      repeat match goal with |- context [Qle_bool ?a ?b] =>
        replace (Qle_bool a b) with true by (symmetry; apply Qle_bool_iff; lra) end.
      reflexivity.
    - apply trace_steps_inside. }
  destruct (8 <=? length (trace_flowfield cos sin pi cfg x y))%nat eqn:E8.
  - destruct (draw_lines cos sin pi rand run k (S (S (S i)))) as [rest j] eqn:Ed.
    specialize (IH (S (S (S i)))). rewrite Ed in IH. destruct IH as [IHl IHf].
    simpl fst in *. split; [simpl; lia|].
    constructor; [|exact IHf].
    split; [apply Nat.leb_le; exact E8|]. split; [exact Hin|].
    apply uniform_range; auto.
  - destruct (IH (S (S i))) as [IHl IHf]. split; [lia | exact IHf].
Qed.

(** Every polyline [generate_flowfield_svg] draws has at least 8 points,
    all inside the margins, and an opacity between the configured bounds,
    and at most [n_lines] polylines are drawn, when the margins fit the
    canvas, the opacity bounds are ordered and [random()] returns values in
    [0,1). *)
Theorem flowfield_lines_valid (cos sin : Q -> Q) (pi : Q) (rand : nat -> Q) (run : FlowRun) :
  (forall j, 0 <= rand j < 1) ->
  margin (run_cfg run) <= width (run_cfg run) - margin (run_cfg run) ->
  margin (run_cfg run) <= height (run_cfg run) - margin (run_cfg run) ->
  stroke_opacity_min run <= stroke_opacity_max run ->
  (length (flowfield_lines cos sin pi rand run) <= Z.to_nat (n_lines run))%nat /\
  Forall (fun '(pts, op) =>
            (8 <= length pts)%nat /\
            Forall (fun p => inside (run_cfg run) (fst p) (snd p) = true) pts /\
            stroke_opacity_min run <= op <= stroke_opacity_max run)
         (flowfield_lines cos sin pi rand run).
Proof. intros. apply draw_lines_props; assumption. Qed.

(** A 100 x 100 canvas with 10 steps of length 1: with [cos = 0] and
    [sin = 1] each line from [(50,50)] climbs to [(50,60)], 11 points. *)
Definition cfg_lines : Config := MkConfig 100 100 0 42 10 1 (1 # 100) 1 1.

Definition run_lines : FlowRun := MkFlowRun cfg_lines 3 (6 # 100) (20 # 100).

Lemma flowfield_lines_valid_witness :
  map (fun '(pts, _) => length pts)
      (flowfield_lines (fun _ => 0) (fun _ => 1) 3 (fun _ => 1 # 2) run_lines)
  = [11; 11; 11]%nat /\
  (forall j, 0 <= (fun _ : nat => 1 # 2) j < 1) /\
  margin (run_cfg run_lines) <= width (run_cfg run_lines) - margin (run_cfg run_lines) /\
  margin (run_cfg run_lines) <= height (run_cfg run_lines) - margin (run_cfg run_lines) /\
  stroke_opacity_min run_lines <= stroke_opacity_max run_lines /\
  (length (flowfield_lines (fun _ => 0%Q) (fun _ => 1%Q) 3%Q (fun _ => (1 # 2)%Q) run_lines)
   <= Z.to_nat (n_lines run_lines))%nat /\
  Forall (fun '(pts, op) =>
            (8 <= length pts)%nat /\
            Forall (fun p => inside (run_cfg run_lines) (fst p) (snd p) = true) pts /\
            stroke_opacity_min run_lines <= op <= stroke_opacity_max run_lines)
         (flowfield_lines (fun _ => 0) (fun _ => 1) 3 (fun _ => 1 # 2) run_lines).
Proof.
  assert (Hr : forall j, 0 <= (fun _ : nat => 1 # 2) j < 1) by (intros; simpl; lra).
  assert (Hw : margin (run_cfg run_lines) <= width (run_cfg run_lines) - margin (run_cfg run_lines))
    by (simpl; lra).
  assert (Hh : margin (run_cfg run_lines) <= height (run_cfg run_lines) - margin (run_cfg run_lines))
    by (simpl; lra).
  assert (Ho : stroke_opacity_min run_lines <= stroke_opacity_max run_lines) by (simpl; lra).
  split; [vm_compute; reflexivity|].
  split; [exact Hr|]. split; [exact Hw|]. split; [exact Hh|]. split; [exact Ho|].
  apply flowfield_lines_valid; assumption.
Defined.
